(** * force-git-resolution.py: lock cleanup and command runner

    A shallow embedding of [src/force-git-resolution.py].  The script is one
    function, [force_git_resolution], made of three consecutive blocks:

    - lines 12-23: delete every entry that [Path('.git').rglob('*.lock')] finds;
    - lines 25-39: delete four well-known lock paths when they exist;
    - lines 41-65: run five git commands, each with [timeout=30].

    Everything the script does is an effect on the outside world (the file
    system, child processes, standard output), so the embedding is a small
    state-and-exception monad over a [world]: the file system as a finite map
    from paths to nodes, and the chronological trace of the script's
    interactions.  What the outside world answers is an [environment], over
    which every theorem quantifies.

    What is assumed of the outside world:

    - the file system is the map of the paths that resolve, so what lies
      above an entry is a directory that can be listed; symbolic links are
      not modelled;
    - writing a line to standard output succeeds;
    - the calls raise exceptions of the [Exception] hierarchy; an interrupt
      of the interpreter ([KeyboardInterrupt]) is not the outcome of a call;
    - a command may change the file system in any way, whether it exits by
      itself or is killed at its timeout;
    - time is logical, counted in the unit of the [timeout] argument. *)

From Stdlib Require Import ZArith String Ascii List.
From stdpp Require Import gmap strings list fin_maps pretty.

Local Open Scope Z_scope.

(** ** Paths and patterns *)

(** A path is the sequence of its components, [pathlib]'s [parts]. *)
Definition path := list string.

Fixpoint split_on (sep : ascii) (s : string) : list string :=
  match s with
  | EmptyString => [EmptyString]
  | String c s' =>
      if Ascii.eqb c sep then EmptyString :: split_on sep s'
      else match split_on sep s' with
           | [] => [String c EmptyString]
           | w :: ws => String c w :: ws
           end
  end.

(** [Path('.git')], and the resolution of a path given as a string by
    [os.path.exists] and [os.remove].  The path strings of the script hold no
    empty component and no ['.'], where normalisation would matter. *)
Definition Path (s : string) : path := split_on "/"%char s.

(** [str(p)] for a [Path] object. *)
Definition path_str (p : path) : string := String.concat "/" p.

(** [p.name], the final component. *)
Definition name (p : path) : string := List.last p EmptyString.

(** [fnmatch] restricted to literal characters, [?] and [*]; matching is
    case-sensitive as on POSIX. *)
Fixpoint fnmatch (pat : string) : string → bool :=
  match pat with
  | EmptyString => λ s, match s with EmptyString => true | _ => false end
  | String c pat' =>
      if Ascii.eqb c "*"%char then
        fix star (s : string) : bool :=
          fnmatch pat' s
          || match s with EmptyString => false | String _ s' => star s' end
      else if Ascii.eqb c "?"%char then
        λ s, match s with EmptyString => false | String _ s' => fnmatch pat' s' end
      else
        λ s, match s with
             | EmptyString => false
             | String d s' => Ascii.eqb c d && fnmatch pat' s'
             end
  end.

(** [strip_root root p] is the rest of [p] below [root], when [p] starts with
    the components of [root]. *)
Fixpoint strip_root (root p : path) : option path :=
  match root, p with
  | [], _ => Some p
  | r :: root', c :: p' => if String.eqb r c then strip_root root' p' else None
  | _ :: _, [] => None
  end.

(** [p] lies strictly below the directory [root]. *)
Definition is_below (root p : path) : bool :=
  match strip_root root p with
  | Some (_ :: _) => true
  | _ => false
  end.

(** ** The file system *)

Inductive node := File | Dir.

(** The file system seen from the working directory: the finite map from
    every path that resolves to the kind of node it resolves to. *)
Abbreviation filesystem := (gmap path node).

(** [root.rglob(pat)]: every entry strictly below [root], at any depth,
    whose name matches [pat]; files and directories alike.  The order in
    which [pathlib] yields the entries is the directory order of the
    operating system and is left unspecified; here it is the enumeration
    order of the map. *)
Definition rglob (fs : filesystem) (root : path) (pat : string) : list path :=
  List.filter (λ p, is_below root p && fnmatch pat (name p))
              (map fst (map_to_list fs)).

(** ** Exceptions *)

(** The exceptions that the calls of the script raise.  All are subclasses of
    [Exception]: [OSError] (with [FileNotFoundError], [PermissionError],
    [IsADirectoryError]) from the file system and from a command that cannot
    be started, [subprocess.TimeoutExpired], and any other [Exception]. *)
Inductive exn :=
| OSError (strerror : string)
| TimeoutExpired (cmd : list string) (timeout : Z)
| Exception (msg : string).

Definition repr_list (l : list string) : string :=
  "[" +:+ String.concat ", " (map (λ s, "'" +:+ s +:+ "'") l) +:+ "]".

(** [str(e)], what an f-string shows for [{e}]. *)
Definition exn_str (e : exn) : string :=
  match e with
  | OSError strerror => strerror
  | TimeoutExpired cmd timeout =>
      "Command '" +:+ repr_list cmd +:+ "' timed out after "
        +:+ pretty timeout +:+ " seconds"
  | Exception msg => msg
  end.

Definition is_TimeoutExpired (e : exn) : bool :=
  match e with TimeoutExpired _ _ => true | _ => false end.

(** ** Child processes *)

(** [subprocess.CompletedProcess] with [capture_output=True, text=True]. *)
Record CompletedProcess := {
  returncode : Z;
  stdout : string;
  stderr : string
}.

(** What a command does when left alone: it exits by itself after some
    time, it never exits, or it cannot be started at all (no [git] on the
    [PATH], for instance). *)
Inductive behaviour :=
| Exits (after : Z) (result : CompletedProcess)
| Hangs
| FailsToStart (e : exn).

(** ** The environment *)

Record environment := {
  (** the error with which the operating system refuses to unlink a regular
      file at that path, if it does (permissions, read-only mount, ...) *)
  unlink_refused : path → option string;
  (** how each command behaves *)
  command_behaviour : list string → behaviour;
  (** what a command that was started leaves of the file system, whether it
      exits by itself or is killed at its timeout *)
  command_effect : list string → filesystem → filesystem
}.

(** ** Worlds and traces *)

(** The interactions of the script with the outside, each with the answer it
    got. *)
Inductive event :=
| Stdout (line : string)
| SysUnlink (p : path) (error : option exn)
| SysExists (p : path) (answer : bool)
| Spawn (cmd : list string) (timeout : Z) (waited : Z).

Record world := {
  fs : filesystem;
  trace : list event
}.

Definition initial (fs0 : filesystem) : world := {| fs := fs0; trace := [] |}.

Definition log (e : event) (w : world) : world :=
  {| fs := fs w; trace := trace w ++ [e] |}.

Definition set_fs (fs' : filesystem) (w : world) : world :=
  {| fs := fs'; trace := trace w |}.

(** ** The monad: state passing with exceptions *)

Inductive outcome (A : Type) :=
| Return (a : A)
| Raise (e : exn).
Arguments Return {A} a.
Arguments Raise {A} e.

Definition M (A : Type) : Type := world → outcome A * world.

Definition ret {A} (a : A) : M A := λ w, (Return a, w).

Definition raise {A} (e : exn) : M A := λ w, (Raise e, w).

Definition bind {A B} (m : M A) (k : A → M B) : M B := λ w,
  match m w with
  | (Return a, w') => k a w'
  | (Raise e, w') => (Raise e, w')
  end.

#[export] Instance M_ret : MRet M := @ret.
#[export] Instance M_bind : MBind M := λ A B k m, bind m k.

(** [try: body except ... as e: handler e]. *)
Definition try_except {A} (body : M A) (handler : exn → M A) : M A := λ w,
  match body w with
  | (Return a, w') => (Return a, w')
  | (Raise e, w') => handler e w'
  end.

(** [for x in l: body x]; an exception leaving the body leaves the loop. *)
Fixpoint for_each {A} (l : list A) (body : A → M unit) : M unit :=
  match l with
  | [] => ret tt
  | x :: l' => body x ;; for_each l' body
  end.

Definition print (line : string) : M unit := λ w, (Return tt, log (Stdout line) w).

(** ** System calls *)

(** Why [unlink] fails on [p], if it does: nothing is there, a directory is
    there, or the operating system refuses. *)
Definition unlink_error (env : environment) (fs : filesystem) (p : path)
  : option exn :=
  match fs !! p with
  | None =>
      Some (OSError ("[Errno 2] No such file or directory: '" +:+ path_str p +:+ "'"))
  | Some Dir =>
      Some (OSError ("[Errno 21] Is a directory: '" +:+ path_str p +:+ "'"))
  | Some File => OSError <$> unlink_refused env p
  end.

Section Script.

Variable env : environment.

(** [Path.unlink] and [os.remove]: one attempt to remove a regular file. *)
Definition unlink (p : path) : M unit := λ w,
  match unlink_error env (fs w) p with
  | Some e => (Raise e, log (SysUnlink p (Some e)) w)
  | None => (Return tt, log (SysUnlink p None) (set_fs (delete p (fs w)) w))
  end.

Definition os_remove (s : string) : M unit := unlink (Path s).

(** [os.path.exists]. *)
Definition os_path_exists (s : string) : M bool := λ w,
  let answer := bool_decide (is_Some (fs w !! Path s)) in
  (Return answer, log (SysExists (Path s) answer) w).

Definition Path_rglob (root : path) (pat : string) : M (list path) := λ w,
  (Return (rglob (fs w) root pat), w).

(** [subprocess.run(cmd, capture_output=True, text=True, timeout=timeout)]:
    wait for the command for at most [timeout]; past that, kill it and raise
    [TimeoutExpired]. *)
Definition subprocess_run (cmd : list string) (timeout : Z) : M CompletedProcess := λ w,
  match command_behaviour env cmd with
  | FailsToStart e => (Raise e, log (Spawn cmd timeout 0) w)
  | Exits after result =>
      if after <=? timeout then
        (Return result,
         log (Spawn cmd timeout after) (set_fs (command_effect env cmd (fs w)) w))
      else
        (Raise (TimeoutExpired cmd timeout),
         log (Spawn cmd timeout timeout) (set_fs (command_effect env cmd (fs w)) w))
  | Hangs =>
      (Raise (TimeoutExpired cmd timeout),
       log (Spawn cmd timeout timeout) (set_fs (command_effect env cmd (fs w)) w))
  end.

(** [l[-1]]. *)
Definition index_last (l : list string) : M string :=
  match last l with
  | Some x => ret x
  | None => raise (Exception "list index out of range")
  end.

(** ** The script *)

Definition git_dir : path := Path ".git".

(** Lines 19-23, the body of the first loop. *)
Definition remove_lock_file (lock_file : path) : M unit :=
  try_except
    (unlink lock_file ;;
     print ("Removed lock file: " +:+ path_str lock_file))
    (λ e, print ("Could not remove " +:+ path_str lock_file +:+ ": " +:+ exn_str e)).

Definition specific_locks : list string :=
  [ ".git/index.lock";
    ".git/HEAD.lock";
    ".git/config.lock";
    ".git/refs/heads/main.lock" ].

(** Lines 34-39, the body of the second loop. *)
Definition remove_specific_lock (lock_path : string) : M unit :=
  try_except
    (present ← os_path_exists lock_path;
     if present : bool then
       os_remove lock_path ;;
       print ("Removed: " +:+ lock_path)
     else ret tt)
    (λ e, print ("Could not remove " +:+ lock_path +:+ ": " +:+ exn_str e)).

Definition commands : list (list string) :=
  [ ["git"; "reset"; "--hard"; "HEAD"];
    ["git"; "clean"; "-fd"];
    ["git"; "fetch"; "--all"];
    ["git"; "reset"; "--hard"; "origin/main"];
    ["git"; "status"] ].

(** Lines 51-62, the body of the third loop. *)
Definition run_command (cmd : list string) : M unit :=
  try_except
    (result ← subprocess_run cmd 30;
     if returncode result =? 0 then
       print ("✓ " +:+ String.concat " " cmd) ;;
       final ← index_last cmd;
       if String.eqb final "status" then print (stdout result) else ret tt
     else
       print ("✗ " +:+ String.concat " " cmd +:+ ": " +:+ stderr result))
    (λ e,
       if is_TimeoutExpired e then
         print ("Timeout: " +:+ String.concat " " cmd)
       else
         print ("Error running " +:+ String.concat " " cmd +:+ ": " +:+ exn_str e)).

(** Lines 12-39: the lock cleanup. *)
Definition lock_cleanup : M unit :=
  print "Force-resolving Git lock and conflicts..." ;;
  lock_files ← Path_rglob git_dir "*.lock";
  for_each lock_files remove_lock_file ;;
  for_each specific_locks remove_specific_lock.

(** Lines 41-65: the command runner and the closing messages. *)
Definition command_runner : M unit :=
  for_each commands run_command ;;
  print (String "010" "Git resolution attempt complete.") ;;
  print "Try running: git status".

Definition force_git_resolution : M unit :=
  lock_cleanup ;;
  command_runner.

(** [if __name__ == "__main__": force_git_resolution()]: the exit status of
    the process is 0 when the call returns and 1 when an exception leaves
    it. *)
Definition main (fs0 : filesystem) : Z * world :=
  match force_git_resolution (initial fs0) with
  | (Return _, w) => (0, w)
  | (Raise _, w) => (1, w)
  end.

End Script.

(** ** Observations on traces *)

(** The paths on which an unlink was attempted, in order. *)
Definition unlinked (t : list event) : list path :=
  flat_map (λ e, match e with SysUnlink p _ => [p] | _ => [] end) t.

(** The paths whose existence was tested, in order. *)
Definition checked (t : list event) : list path :=
  flat_map (λ e, match e with SysExists p _ => [p] | _ => [] end) t.

(** The commands that were invoked, in order. *)
Definition spawned (t : list event) : list (list string) :=
  flat_map (λ e, match e with Spawn cmd _ _ => [cmd] | _ => [] end) t.

(** What was printed, one string for each call of [print]. *)
Definition printed (t : list event) : list string :=
  flat_map (λ e, match e with Stdout line => [line] | _ => [] end) t.

(** The deletions that raised an error, in order. *)
Definition failed_unlinks (t : list event) : list (path * exn) :=
  flat_map (λ e, match e with SysUnlink p (Some err) => [(p, err)] | _ => [] end) t.

(** The printed lines that start with the word Removed. *)
Definition removed_lines (t : list event) : list string :=
  List.filter (String.prefix "Removed") (printed t).

(** Event [b] comes right after event [a] somewhere in [t]. *)
Definition followed_by (t : list event) (a b : event) : Prop :=
  ∃ pre post, t = pre ++ a :: b :: post.

(** ** Vocabulary of the statements *)

(** [p] is an entry that the search of line 16 yields: it lies below [.git]
    and its name matches [*.lock]. *)
Definition is_lock_under_git (p : path) : bool :=
  is_below git_dir p && fnmatch "*.lock" (name p).

(** The deletion of [p] raised an error, and the error was logged in a
    message that names [p]. *)
Definition removal_failed_and_logged (p : path) (t : list event) : Prop :=
  ∃ e, In (SysUnlink p (Some e)) t
       ∧ In (Stdout ("Could not remove " +:+ path_str p +:+ ": " +:+ exn_str e)) t.

(** An invocation is bounded when it was given the timeout 30 and made the
    script wait no longer than that. *)
Definition bounded_wait (e : event) : Prop :=
  match e with
  | Spawn _ timeout waited => timeout = 30 ∧ waited ≤ timeout
  | _ => True
  end.


(** A command never brings back an entry that is absent. *)
Definition never_recreates (env : environment) (p : path) : Prop :=
  ∀ cmd (fs0 : filesystem), fs0 !! p = None → command_effect env cmd fs0 !! p = None.

(** ** Closed forms of the loops *)

(** The world that one round of the first loop leaves. *)
Definition after_remove_lock_file (env : environment) (p : path) (w : world) : world :=
  match unlink_error env (fs w) p with
  | None =>
      {| fs := delete p (fs w);
         trace := trace w ++ [SysUnlink p None;
                              Stdout ("Removed lock file: " +:+ path_str p)] |}
  | Some e =>
      {| fs := fs w;
         trace := trace w ++ [SysUnlink p (Some e);
                              Stdout ("Could not remove " +:+ path_str p +:+ ": "
                                        +:+ exn_str e)] |}
  end.

(** The world that one round of the second loop leaves. *)
Definition after_remove_specific_lock (env : environment) (s : string) (w : world)
  : world :=
  if bool_decide (is_Some (fs w !! Path s)) then
    match unlink_error env (fs w) (Path s) with
    | None =>
        {| fs := delete (Path s) (fs w);
           trace := trace w ++ [SysExists (Path s) true;
                                SysUnlink (Path s) None;
                                Stdout ("Removed: " +:+ s)] |}
    | Some e =>
        {| fs := fs w;
           trace := trace w ++ [SysExists (Path s) true;
                                SysUnlink (Path s) (Some e);
                                Stdout ("Could not remove " +:+ s +:+ ": "
                                          +:+ exn_str e)] |}
    end
  else
    {| fs := fs w; trace := trace w ++ [SysExists (Path s) false] |}.

(** The world that the first loop leaves, over the lock files [l]. *)
Definition after_found_locks (env : environment) (l : list path) (w : world) : world :=
  foldl (λ w p, after_remove_lock_file env p w) w l.

(** The world that the second loop leaves, over the lock paths [l]. *)
Definition after_specific_locks (env : environment) (l : list string) (w : world)
  : world :=
  foldl (λ w s, after_remove_specific_lock env s w) w l.

(** What one round of the third loop adds to the trace. *)
Definition report (env : environment) (cmd : list string) : list event :=
  trace (snd (run_command env cmd (initial ∅))).

(** The closing messages of the script. *)
Definition closing : list event :=
  [ Stdout (String "010" "Git resolution attempt complete.");
    Stdout "Try running: git status" ].

(** ** Invariants of the cleanup *)

(** From [w] to [w'] nothing happened but attempts to unlink [p]: the
    trace grew by events that invoke no command and unlink nothing else, and
    the file system is the same or has lost [p]. *)
Definition deletes_at_most (p : path) (w w' : world) : Prop :=
  (∃ t, trace w' = trace w ++ t
        ∧ spawned t = []
        ∧ ∀ q, In q (unlinked t) → q = p)
  ∧ (fs w' = fs w ∨ fs w' = delete p (fs w)).

(** Compared with the file system [fs0], the entry at [p] is gone or is as it
    was. *)
Definition gone_or_kept (fs0 : filesystem) (p : path) (w : world) : Prop :=
  fs w !! p = None ∨ fs w !! p = fs0 !! p.

(** Compared with the file system [fs0], the entry at [p] is gone, or it is
    as it was and its deletion raised an error that was logged. *)
Definition gone_or_logged (fs0 : filesystem) (p : path) (w : world) : Prop :=
  fs w !! p = None
  ∨ (fs w !! p = fs0 !! p ∧ removal_failed_and_logged p (trace w)).

(** Since [fs0], only paths in [allowed] were given to unlink, every other
    path resolves as it did, and no path resolves to anything new. *)
Definition confined_to (fs0 : filesystem) (allowed : path → Prop) (w : world) : Prop :=
  (∀ p, In p (unlinked (trace w)) → allowed p)
  ∧ (∀ p, ¬ allowed p → fs w !! p = fs0 !! p)
  ∧ (∀ p, gone_or_kept fs0 p w).

(** ** Scenarios *)

(** A repository in which two stale locks were left behind. *)
Definition two_locks : filesystem :=
  list_to_map
    [ (Path ".git", Dir);
      (Path ".git/config", File);
      (Path ".git/index.lock", File);
      (Path ".git/refs", Dir);
      (Path ".git/refs/heads", Dir);
      (Path ".git/refs/heads/main.lock", File);
      (Path "README.md", File) ].

(** A command that exits at once with status 0 and the given output. *)
Definition succeeds (out : string) : behaviour :=
  Exits 1 {| returncode := 0; stdout := out; stderr := "" |}.

(** Nothing goes wrong: every deletion is permitted, every command succeeds
    and leaves the entries of the file system alone. *)
Definition env_calm : environment :=
  {| unlink_refused := λ _, None;
     command_behaviour := λ _, succeeds "";
     command_effect := λ _ fs0, fs0 |}.

(** The index lock cannot be deleted (a read-only [.git], say). *)
Definition env_refusing : environment :=
  {| unlink_refused := λ p,
       if decide (p = Path ".git/index.lock")
       then Some "[Errno 13] Permission denied: '.git/index.lock'"
       else None;
     command_behaviour := λ _, succeeds "";
     command_effect := λ _ fs0, fs0 |}.

(** The first command takes the index lock, is still running at the timeout
    and is killed while it holds the lock. *)
Definition env_relock : environment :=
  {| unlink_refused := λ _, None;
     command_behaviour := λ cmd,
       if decide (cmd = ["git"; "reset"; "--hard"; "HEAD"]) then Hangs
       else succeeds "";
     command_effect := λ cmd fs0,
       if decide (cmd = ["git"; "reset"; "--hard"; "HEAD"])
       then <[Path ".git/index.lock" := File]> fs0
       else fs0 |}.

(** The remote does not answer: [git fetch --all] never exits. *)
Definition env_slow_fetch : environment :=
  {| unlink_refused := λ _, None;
     command_behaviour := λ cmd,
       if decide (cmd = ["git"; "fetch"; "--all"]) then Hangs else succeeds "";
     command_effect := λ _ fs0, fs0 |}.



(** ** Vocabulary of the further properties *)

(** The paths that were unlinked with success, in order. *)
Definition deleted (t : list event) : list path :=
  flat_map (λ e, match e with SysUnlink p None => [p] | _ => [] end) t.

(** An unlink of [p] would raise an error in [w]. *)
Definition unlink_fails (env : environment) (p : path) (w : world) : Prop :=
  is_Some (unlink_error env (fs w) p).


(** ** Further scenarios *)

(** A directory that is no repository. *)
Definition no_repository : filesystem :=
  list_to_map [ (Path "README.md", File); (Path "src", Dir); (Path "src/main.py", File) ].

(** A repository in which a directory has the name of a lock. *)
Definition lock_directory : filesystem :=
  list_to_map
    [ (Path ".git", Dir);
      (Path ".git/index.lock", Dir);
      (Path ".git/index.lock/note", File);
      (Path ".git/HEAD.lock", File) ].

(** No [git] executable can be found. *)
Definition env_no_git : environment :=
  {| unlink_refused := λ _, None;
     command_behaviour := λ _,
       FailsToStart (OSError "[Errno 2] No such file or directory: 'git'");
     command_effect := λ _ fs0, fs0 |}.



(** * Proofs *)

(** ** The model on examples *)

Example Path_parts :
  Path ".git/refs/heads/main.lock" = [".git"; "refs"; "heads"; "main.lock"]
  ∧ path_str [".git"; "refs"; "heads"; "main.lock"] = ".git/refs/heads/main.lock"
  ∧ name (Path ".git/refs/heads/main.lock") = "main.lock".
Proof. repeat split. Qed.

Example fnmatch_names :
  fnmatch "*.lock" "index.lock" = true
  ∧ fnmatch "*.lock" ".lock" = true
  ∧ fnmatch "*.lock" "index.lock.bak" = false
  ∧ fnmatch "*.lock" "lock" = false
  ∧ fnmatch "HEAD?lock" "HEAD.lock" = true.
Proof. repeat split. Qed.

Example is_below_git :
  is_below git_dir (Path ".git/index.lock") = true
  ∧ is_below git_dir (Path ".git") = false
  ∧ is_below git_dir (Path ".github/index.lock") = false
  ∧ is_below git_dir (Path "src/.git/index.lock") = false.
Proof. repeat split. Qed.

(** The search in the repository with two stale locks. *)
Lemma rglob_two_locks :
  rglob two_locks git_dir "*.lock"
  = [Path ".git/index.lock"; Path ".git/refs/heads/main.lock"].
Proof. vm_compute. reflexivity. Qed.

(** The calls do raise: a refused deletion, the deletion of a directory, a
    command that is killed at the timeout. *)
Example calls_raise :
  fst (unlink env_refusing (Path ".git/index.lock") (initial two_locks))
  = Raise (OSError "[Errno 13] Permission denied: '.git/index.lock'")
  ∧ fst (unlink env_calm (Path ".git/refs") (initial two_locks))
    = Raise (OSError "[Errno 21] Is a directory: '.git/refs'")
  ∧ fst (subprocess_run env_slow_fetch ["git"; "fetch"; "--all"] 30 (initial two_locks))
    = Raise (TimeoutExpired ["git"; "fetch"; "--all"] 30)
  ∧ exn_str (TimeoutExpired ["git"; "fetch"; "--all"] 30)
    = "Command '['git', 'fetch', '--all']' timed out after 30 seconds".
Proof. vm_compute. repeat split. Qed.

(** A whole run: the index lock cannot be deleted, which is logged by both
    loops; the other lock is deleted by the first loop and is no longer there
    for the second; the five commands succeed. *)
Example run_with_refused_deletion :
  let (status, w) := main env_refusing two_locks in
  status = 0
  ∧ trace w
    = [ Stdout "Force-resolving Git lock and conflicts...";
        SysUnlink [".git"; "index.lock"]
          (Some (OSError "[Errno 13] Permission denied: '.git/index.lock'"));
        Stdout "Could not remove .git/index.lock: [Errno 13] Permission denied: '.git/index.lock'";
        SysUnlink [".git"; "refs"; "heads"; "main.lock"] None;
        Stdout "Removed lock file: .git/refs/heads/main.lock";
        SysExists [".git"; "index.lock"] true;
        SysUnlink [".git"; "index.lock"]
          (Some (OSError "[Errno 13] Permission denied: '.git/index.lock'"));
        Stdout "Could not remove .git/index.lock: [Errno 13] Permission denied: '.git/index.lock'";
        SysExists [".git"; "HEAD.lock"] false;
        SysExists [".git"; "config.lock"] false;
        SysExists [".git"; "refs"; "heads"; "main.lock"] false;
        Spawn ["git"; "reset"; "--hard"; "HEAD"] 30 1;
        Stdout "✓ git reset --hard HEAD";
        Spawn ["git"; "clean"; "-fd"] 30 1;
        Stdout "✓ git clean -fd";
        Spawn ["git"; "fetch"; "--all"] 30 1;
        Stdout "✓ git fetch --all";
        Spawn ["git"; "reset"; "--hard"; "origin/main"] 30 1;
        Stdout "✓ git reset --hard origin/main";
        Spawn ["git"; "status"] 30 1;
        Stdout "✓ git status";
        Stdout "";
        Stdout (String "010" "Git resolution attempt complete.");
        Stdout "Try running: git status" ]
  ∧ map fst (map_to_list (fs w))
    = [ Path ".git"; Path ".git/refs"; Path ".git/refs/heads";
        Path ".git/index.lock"; Path ".git/config"; Path "README.md" ].
Proof. vm_compute. repeat split. Qed.

(** ** Traces *)

Lemma unlinked_app t1 t2 : unlinked (t1 ++ t2) = unlinked t1 ++ unlinked t2.
Proof. apply flat_map_app. Qed.

Lemma checked_app t1 t2 : checked (t1 ++ t2) = checked t1 ++ checked t2.
Proof. apply flat_map_app. Qed.

Lemma spawned_app t1 t2 : spawned (t1 ++ t2) = spawned t1 ++ spawned t2.
Proof. apply flat_map_app. Qed.

Lemma printed_app t1 t2 : printed (t1 ++ t2) = printed t1 ++ printed t2.
Proof. apply flat_map_app. Qed.


Lemma followed_by_app_r t1 t2 a b : followed_by t2 a b → followed_by (t1 ++ t2) a b.
Proof.
  intros (pre & post & ->). exists (t1 ++ pre), post.
  by rewrite <- app_assoc.
Qed.

(** ** The loop *)

Section Loop.

Context {A : Type} (body : A → M unit) (step : A → world → world).
Hypothesis body_returns : ∀ x w, body x w = (Return tt, step x w).

(** A loop whose body always returns runs every round, in order. *)
Lemma for_each_foldl l w :
  for_each l body w = (Return tt, foldl (λ w x, step x w) w l).
Proof.
  revert w. induction l as [|x l IH]; intros w; [done|].
  cbn [for_each foldl]. unfold mbind, M_bind, bind.
  rewrite body_returns. apply IH.
Qed.

(** The invariant rule for such a loop. *)
Lemma foldl_invariant (I : world → Prop) l w :
  (∀ x w, In x l → I w → I (step x w)) →
  I w → I (foldl (λ w x, step x w) w l).
Proof.
  revert w. induction l as [|x l IH]; intros w Hstep Hw; [done|].
  cbn [foldl]. apply IH.
  - intros y w' Hy. apply Hstep. by right.
  - apply Hstep; [by left | done].
Qed.

End Loop.

(** ** One round of each loop *)

Ltac run_monad :=
  unfold try_except, mbind, M_bind, bind, mret, M_ret, ret, raise, print, log, set_fs;
  cbn [fs trace fst snd].

Lemma remove_lock_file_returns env p w :
  remove_lock_file env p w = (Return tt, after_remove_lock_file env p w).
Proof.
  unfold remove_lock_file, after_remove_lock_file, unlink. run_monad.
  destruct (unlink_error env (fs w) p); cbn [fs trace];
    by rewrite <- app_assoc.
Qed.

Lemma remove_specific_lock_returns env s w :
  remove_specific_lock env s w = (Return tt, after_remove_specific_lock env s w).
Proof.
  unfold remove_specific_lock, after_remove_specific_lock, os_path_exists,
    os_remove, unlink.
  run_monad.
  destruct (bool_decide (is_Some (fs w !! Path s))); cbn [fs trace]; [|done].
  destruct (unlink_error env (fs w) (Path s)); cbn [fs trace];
    by rewrite <- !app_assoc.
Qed.

Ltac same_trace :=
  cbn [app fs trace fst snd]; rewrite <- ?app_assoc; cbn [app]; reflexivity.

Lemma run_command_returns env cmd w :
  ∃ fs', run_command env cmd w
         = (Return tt, {| fs := fs'; trace := trace w ++ report env cmd |})
         ∧ (fs' = fs w ∨ fs' = command_effect env cmd (fs w)).
Proof.
  unfold report, run_command, subprocess_run, index_last, initial. run_monad.
  destruct (command_behaviour env cmd) as [after result| |e].
  - destruct (after <=? 30); cbn [is_TimeoutExpired fs trace];
      [|eexists; split; [same_trace | by right]].
    destruct (returncode result =? 0); [|eexists; split; [same_trace | by right]].
    destruct (last cmd) as [final|]; cbn [is_TimeoutExpired fs trace];
      [|eexists; split; [same_trace | by right]].
    destruct (String.eqb final "status");
      eexists; (split; [same_trace | by right]).
  - cbn [is_TimeoutExpired]. eexists; split; [same_trace | by right].
  - destruct (is_TimeoutExpired e); eexists; (split; [same_trace | by left]).
Qed.

(** ** The command runner *)

(** The loop over the commands runs every round, whatever the commands do;
    a property of the file system that no command breaks still holds
    afterwards. *)
Lemma run_commands_returns (env : environment) (P : filesystem → Prop) l w :
  (∀ cmd fs0, P fs0 → P (command_effect env cmd fs0)) →
  P (fs w) →
  ∃ fs', for_each l (run_command env) w
         = (Return tt,
            {| fs := fs'; trace := trace w ++ concat (map (report env) l) |})
         ∧ P fs'.
Proof.
  intros Hkeep. revert w. induction l as [|cmd l IH]; intros w Hw.
  - exists (fs w). split; [|done]. destruct w. cbn. by rewrite app_nil_r.
  - cbn [for_each map concat]. unfold mbind, M_bind, bind.
    destruct (run_command_returns env cmd w) as (fs1 & -> & Hfs1).
    destruct (IH {| fs := fs1; trace := trace w ++ report env cmd |})
      as (fs2 & -> & Hfs2).
    { cbn [fs]. destruct Hfs1 as [->| ->]; [done | by apply Hkeep]. }
    exists fs2. split; [|done]. cbn [trace]. by rewrite <- app_assoc.
Qed.

Lemma command_runner_returns (env : environment) (P : filesystem → Prop) w :
  (∀ cmd fs0, P fs0 → P (command_effect env cmd fs0)) →
  P (fs w) →
  ∃ fs', command_runner env w
         = (Return tt,
            {| fs := fs';
               trace := trace w ++ concat (map (report env) commands) ++ closing |})
         ∧ P fs'.
Proof.
  intros Hkeep Hw. unfold command_runner, mbind, M_bind, bind.
  destruct (run_commands_returns env P commands w Hkeep Hw) as (fs1 & -> & Hfs1).
  exists fs1. split; [|done]. unfold print, log, closing. cbn [fs trace].
  by rewrite <- !app_assoc.
Qed.

Ltac report_cases env cmd :=
  unfold report, run_command, subprocess_run, index_last, initial; run_monad;
  destruct (command_behaviour env cmd) as [after result| |e];
  [ destruct (after <=? 30) eqn:Hafter; cbn [is_TimeoutExpired fs trace];
    [ destruct (returncode result =? 0) eqn:Hcode;
      [ destruct (last cmd) as [final|]; cbn [is_TimeoutExpired fs trace];
        [ destruct (String.eqb final "status") |] |] |]
  | cbn [is_TimeoutExpired fs trace]
  | destruct (is_TimeoutExpired e) ];
  cbn [app fs trace fst snd].

(** One round invokes its command once. *)
Lemma spawned_report env cmd : spawned (report env cmd) = [cmd].
Proof. report_cases env cmd; reflexivity. Qed.

(** One round waits for its command no longer than the timeout of 30. *)
Lemma bounded_wait_report env cmd : Forall bounded_wait (report env cmd).
Proof.
  report_cases env cmd; repeat constructor; try apply Z.leb_le; try done.
Qed.



Lemma spawned_reports env l : spawned (concat (map (report env) l)) = l.
Proof.
  induction l as [|cmd l IH]; [done|].
  cbn [map concat]. by rewrite spawned_app, spawned_report, IH.
Qed.

Lemma bounded_wait_reports env l : Forall bounded_wait (concat (map (report env) l)).
Proof.
  induction l as [|cmd l IH]; [constructor|].
  cbn [map concat]. apply Forall_app. split; [apply bounded_wait_report | done].
Qed.

(** ** Paths and the search *)

Lemma split_on_nonempty sep s : split_on sep s ≠ [].
Proof.
  destruct s as [|c s]; cbn; [done|].
  destruct (Ascii.eqb c sep); [done|]. by destruct (split_on sep s).
Qed.

(** Joining the components of a path string gives the string back. *)
Lemma path_str_Path s : path_str (Path s) = s.
Proof.
  unfold path_str, Path. induction s as [|c s IH]; [done|].
  cbn [split_on]. destruct (Ascii.eqb_spec c "/"%char) as [->|Hc].
  - pose proof (split_on_nonempty "/"%char s) as Hne.
    cbn [String.concat]. destruct (split_on "/"%char s) as [|x xs]; [done|].
    by rewrite IH.
  - pose proof (split_on_nonempty "/"%char s) as Hne.
    destruct (split_on "/"%char s) as [|x xs]; [done|].
    cbn [String.concat] in *. destruct xs as [|y ys].
    + by rewrite IH.
    + by rewrite <- IH.
Qed.



Lemma rglob_spec (fs0 : filesystem) root pat p :
  In p (rglob fs0 root pat)
  ↔ is_Some (fs0 !! p) ∧ is_below root p = true ∧ fnmatch pat (name p) = true.
Proof.
  unfold rglob. rewrite filter_In, andb_true_iff, in_map_iff.
  split.
  - intros [((q & k) & <- & Hin) Hmatch]. split; [|done].
    apply list_elem_of_In, elem_of_map_to_list in Hin. by exists k.
  - intros [[k Hk] Hmatch]. split; [|done].
    exists (p, k). split; [done|].
    by apply list_elem_of_In, elem_of_map_to_list.
Qed.

(** The search yields no entry twice. *)
Lemma rglob_NoDup (fs0 : filesystem) root pat : List.NoDup (rglob fs0 root pat).
Proof.
  unfold rglob. apply List.NoDup_filter, NoDup_ListNoDup, NoDup_fst_map_to_list.
Qed.

(** The four well-known paths are among what the search looks for. *)
Lemma specific_locks_under_git s :
  In s specific_locks → is_lock_under_git (Path s) = true.
Proof.
  intros Hs. repeat (destruct Hs as [<-|Hs]; [reflexivity|]). destruct Hs.
Qed.

(** ** The lock cleanup *)

Lemma lock_cleanup_returns env w :
  lock_cleanup env w
  = (Return tt,
     after_specific_locks env specific_locks
       (after_found_locks env (rglob (fs w) git_dir "*.lock")
          (log (Stdout "Force-resolving Git lock and conflicts...") w))).
Proof.
  unfold lock_cleanup, Path_rglob, mbind, M_bind, bind, print. cbn [fs].
  rewrite (for_each_foldl _ _ (remove_lock_file_returns env)).
  by rewrite (for_each_foldl _ _ (remove_specific_lock_returns env)).
Qed.

Lemma remove_lock_file_deletes_at_most env p w :
  deletes_at_most p w (after_remove_lock_file env p w).
Proof.
  unfold after_remove_lock_file.
  destruct (unlink_error env (fs w) p) as [e|]; (split; [eexists; cbn [trace]; split; [done|] |]).
  - split; [done|]. intros q [<-|[]]. done.
  - by left.
  - split; [done|]. intros q [<-|[]]. done.
  - by right.
Qed.

Lemma remove_specific_lock_deletes_at_most env s w :
  deletes_at_most (Path s) w (after_remove_specific_lock env s w).
Proof.
  unfold after_remove_specific_lock.
  destruct (bool_decide (is_Some (fs w !! Path s))).
  - destruct (unlink_error env (fs w) (Path s)) as [e|];
      (split; [eexists; cbn [trace]; split; [done|] |]).
    + split; [done|]. intros q [<-|[]]. done.
    + by left.
    + split; [done|]. intros q [<-|[]]. done.
    + by right.
  - split; [eexists; cbn [trace]; split; [done|] | by left].
    split; [done|]. intros q [].
Qed.

Section DeletesAtMost.

Context (fs0 : filesystem) (p : path) (w w' : world).
Hypothesis Hstep : deletes_at_most p w w'.

Lemma deletes_at_most_trace e : In e (trace w) → In e (trace w').
Proof.
  destruct Hstep as [(t & -> & _) _]. intros He. apply in_or_app. by left.
Qed.

Lemma deletes_at_most_spawned : spawned (trace w') = spawned (trace w).
Proof.
  destruct Hstep as [(t & -> & Ht & _) _].
  by rewrite spawned_app, Ht, app_nil_r.
Qed.

Lemma deletes_at_most_unlinked q :
  In q (unlinked (trace w')) → In q (unlinked (trace w)) ∨ q = p.
Proof.
  destruct Hstep as [(t & -> & _ & Ht) _].
  rewrite unlinked_app. intros [Hq|Hq]%in_app_or; [by left | right; by apply Ht].
Qed.

Lemma deletes_at_most_lookup q : fs w' !! q = fs w !! q ∨ (q = p ∧ fs w' !! q = None).
Proof.
  destruct Hstep as [_ [-> | ->]]; [by left|].
  destruct (decide (p = q)) as [<-|Hne].
  - right. split; [done|]. apply lookup_delete_eq.
  - left. by apply lookup_delete_ne.
Qed.

Lemma deletes_at_most_other q : q ≠ p → fs w' !! q = fs w !! q.
Proof. intros Hne. destruct (deletes_at_most_lookup q) as [?|[? _]]; done. Qed.

Lemma deletes_at_most_gone_or_kept q : gone_or_kept fs0 q w → gone_or_kept fs0 q w'.
Proof.
  unfold gone_or_kept.
  destruct (deletes_at_most_lookup q) as [-> | [_ ->]]; [done | by left].
Qed.

Lemma deletes_at_most_gone_or_logged q :
  gone_or_logged fs0 q w → gone_or_logged fs0 q w'.
Proof.
  unfold gone_or_logged, removal_failed_and_logged.
  destruct (deletes_at_most_lookup q) as [-> | [_ ->]]; [| by left].
  intros [Hgone|[Hkept (e & He1 & He2)]]; [by left|].
  right. split; [done|]. exists e. split; by apply deletes_at_most_trace.
Qed.

End DeletesAtMost.

(** The round of the first loop for [p] settles [p]: it removes it, or logs
    why it could not. *)
Lemma remove_lock_file_settles env fs0 p w :
  gone_or_kept fs0 p w → gone_or_logged fs0 p (after_remove_lock_file env p w).
Proof.
  unfold gone_or_kept, gone_or_logged, after_remove_lock_file.
  intros Hw. destruct (unlink_error env (fs w) p) as [e|]; cbn [fs trace].
  - destruct Hw as [Hgone|Hkept]; [by left|].
    right. split; [done|]. exists e. split; apply in_or_app; right; cbn; auto.
  - left. apply lookup_delete_eq.
Qed.

Lemma after_found_locks_settles env fs0 p l w :
  In p l →
  gone_or_kept fs0 p w →
  gone_or_logged fs0 p (after_found_locks env l w).
Proof.
  unfold after_found_locks. revert w.
  induction l as [|q l IH]; intros w Hin Hw; [destruct Hin|].
  cbn [foldl]. destruct (decide (q = p)) as [->|Hne].
  - apply (foldl_invariant _ (gone_or_logged fs0 p)).
    + intros x w' _. apply deletes_at_most_gone_or_logged with (p := x).
      apply remove_lock_file_deletes_at_most.
    + by apply remove_lock_file_settles.
  - apply IH.
    + by destruct Hin.
    + apply deletes_at_most_gone_or_kept with (p := q) (w := w); [|done].
      apply remove_lock_file_deletes_at_most.
Qed.

Lemma after_specific_locks_gone_or_logged env fs0 p l w :
  gone_or_logged fs0 p w → gone_or_logged fs0 p (after_specific_locks env l w).
Proof.
  unfold after_specific_locks. apply foldl_invariant.
  intros s w' _. apply deletes_at_most_gone_or_logged with (p := Path s).
  apply remove_specific_lock_deletes_at_most.
Qed.

(** Every entry that the search yields is settled when the cleanup ends. *)
Lemma lock_cleanup_settles env fs0 p :
  is_Some (fs0 !! p) →
  is_lock_under_git p = true →
  gone_or_logged fs0 p (snd (lock_cleanup env (initial fs0))).
Proof.
  intros Hp Hlock. rewrite lock_cleanup_returns. cbn [snd].
  apply after_specific_locks_gone_or_logged, after_found_locks_settles.
  - apply rglob_spec. by apply andb_true_iff in Hlock.
  - by right.
Qed.

(** The cleanup invokes no command. *)
Lemma lock_cleanup_spawned env w :
  spawned (trace (snd (lock_cleanup env w))) = spawned (trace w).
Proof.
  rewrite lock_cleanup_returns. cbn [snd].
  unfold after_specific_locks, after_found_locks.
  apply (foldl_invariant _ (λ w', spawned (trace w') = spawned (trace w))).
  { intros s w' _ <-. apply deletes_at_most_spawned with (p := Path s).
    apply remove_specific_lock_deletes_at_most. }
  apply (foldl_invariant _ (λ w', spawned (trace w') = spawned (trace w))).
  { intros p w' _ <-. apply deletes_at_most_spawned with (p := p).
    apply remove_lock_file_deletes_at_most. }
  unfold log. cbn [trace]. by rewrite spawned_app, app_nil_r.
Qed.

Lemma spawned_nil_bounded_wait t : spawned t = [] → Forall bounded_wait t.
Proof.
  induction t as [|e t IH]; intros Ht; [constructor|].
  destruct e; cbn in Ht; try discriminate; constructor; cbn; auto.
Qed.

(** ** The whole routine *)

(** The routine returns, with the trace of the cleanup followed by one
    report for each command and the closing messages. *)
Lemma force_git_resolution_returns (env : environment) (P : filesystem → Prop) w :
  (∀ cmd fs0, P fs0 → P (command_effect env cmd fs0)) →
  P (fs (snd (lock_cleanup env w))) →
  ∃ fs',
    force_git_resolution env w
    = (Return tt,
       {| fs := fs';
          trace := trace (snd (lock_cleanup env w))
                   ++ concat (map (report env) commands) ++ closing |})
    ∧ command_runner env (snd (lock_cleanup env w))
      = (Return tt,
         {| fs := fs';
            trace := trace (snd (lock_cleanup env w))
                     ++ concat (map (report env) commands) ++ closing |})
    ∧ P fs'.
Proof.
  intros Hkeep Hw.
  destruct (command_runner_returns env P _ Hkeep Hw) as (fs' & Hrun & Hfs').
  exists fs'. split; [|done].
  unfold force_git_resolution, mbind, M_bind, bind.
  rewrite lock_cleanup_returns in *. cbn [snd] in *. done.
Qed.

Lemma force_git_resolution_trace env w :
  ∃ fs',
    force_git_resolution env w
    = (Return tt,
       {| fs := fs';
          trace := trace (snd (lock_cleanup env w))
                   ++ concat (map (report env) commands) ++ closing |}).
Proof.
  destruct (force_git_resolution_returns env (λ _, True) w) as (fs' & H & _);
    eauto.
Qed.

(** ** The claims on the command runner *)



(** C8. Each of the five invocations is given the timeout 30 and makes the
    routine wait for the command no longer than that. *)
Theorem every_command_waits_at_most_30 (env : environment) (fs0 : filesystem) :
  ∃ w, force_git_resolution env (initial fs0) = (Return tt, w)
       ∧ Forall bounded_wait (trace w)
       ∧ length (spawned (trace w)) = 5%nat.
Proof.
  destruct (force_git_resolution_trace env (initial fs0)) as [fs' ->].
  eexists. split; [done|]. cbn [trace]. split.
  - apply Forall_app. split; [|apply Forall_app; split].
    + apply spawned_nil_bounded_wait. by rewrite lock_cleanup_spawned.
    + apply bounded_wait_reports.
    + by repeat constructor.
  - rewrite !spawned_app, lock_cleanup_spawned, spawned_reports. reflexivity.
Qed.






(** ** The claims on the lock cleanup *)

(** What holds of an entry that the cleanup has settled, for the rest of the
    routine. *)
Lemma settled_entry_at_return (env : environment) (fs0 : filesystem) (p : path) :
  ∃ w1 w2,
    lock_cleanup env (initial fs0) = (Return tt, w1)
    ∧ command_runner env w1 = (Return tt, w2)
    ∧ force_git_resolution env (initial fs0) = (Return tt, w2)
    ∧ spawned (trace w1) = []
    ∧ (never_recreates env p → fs w1 !! p = None → fs w2 !! p = None).
Proof.
  pose (w1 := snd (lock_cleanup env (initial fs0))).
  destruct (force_git_resolution_returns env
              (λ f, never_recreates env p → fs w1 !! p = None → f !! p = None)
              (initial fs0))
    as (fs' & Hall & Hrun & Hfs'); [|done|].
  { intros cmd f Hf Hnever Hgone. apply Hnever. by apply Hf. }
  exists w1, {| fs := fs'; trace := trace w1 ++ concat (map (report env) commands)
                                              ++ closing |}.
  split; [unfold w1; by rewrite lock_cleanup_returns|].
  split; [done|]. split; [done|].
  split; [|done]. unfold w1. by rewrite lock_cleanup_spawned.
Qed.




(** C4 (amended). Take one of the four well-known lock paths that exists
    when the routine starts.  When the cleanup ends, before any command is
    invoked, the path is absent, unless its deletion raised an error: then
    the error was logged in a message naming the path, and the entry is
    still there.  An absent path is still absent when the routine returns if
    no command brings it back. *)
Theorem specific_locks_are_removed
    (env : environment) (fs0 : filesystem) (s : string) :
  In s specific_locks →
  is_Some (fs0 !! Path s) →
  ∃ w1 w2,
    lock_cleanup env (initial fs0) = (Return tt, w1)
    ∧ command_runner env w1 = (Return tt, w2)
    ∧ force_git_resolution env (initial fs0) = (Return tt, w2)
    ∧ spawned (trace w1) = []
    ∧ (fs w1 !! Path s = None
       ∨ (fs w1 !! Path s = fs0 !! Path s
          ∧ ∃ e, In (SysUnlink (Path s) (Some e)) (trace w1)
                 ∧ In (Stdout ("Could not remove " +:+ s +:+ ": " +:+ exn_str e))
                      (trace w1)))
    ∧ (never_recreates env (Path s) → fs w1 !! Path s = None → fs w2 !! Path s = None).
Proof.
  intros Hs Hthere.
  destruct (settled_entry_at_return env fs0 (Path s))
    as (w1 & w2 & Hw1 & Hw2 & Hall & Hquiet & Hend).
  exists w1, w2. repeat (split; [done|]). split; [|done].
  pose proof (lock_cleanup_settles env fs0 (Path s) Hthere
                (specific_locks_under_git s Hs)) as Hsettled.
  rewrite Hw1 in Hsettled.
  unfold gone_or_logged, removal_failed_and_logged in Hsettled.
  cbn [snd] in Hsettled. by rewrite path_str_Path in Hsettled.
Qed.

(** C4 (amended) on an example: the lock of the main branch, when nothing
    goes wrong. *)
Lemma specific_locks_are_removed_witness :
  ∃ w1 w2,
    lock_cleanup env_calm (initial two_locks) = (Return tt, w1)
    ∧ command_runner env_calm w1 = (Return tt, w2)
    ∧ force_git_resolution env_calm (initial two_locks) = (Return tt, w2)
    ∧ spawned (trace w1) = []
    ∧ (fs w1 !! Path ".git/refs/heads/main.lock" = None
       ∨ (fs w1 !! Path ".git/refs/heads/main.lock"
          = two_locks !! Path ".git/refs/heads/main.lock"
          ∧ ∃ e, In (SysUnlink (Path ".git/refs/heads/main.lock") (Some e)) (trace w1)
                 ∧ In (Stdout ("Could not remove " +:+ ".git/refs/heads/main.lock"
                                 +:+ ": " +:+ exn_str e))
                      (trace w1)))
    ∧ (never_recreates env_calm (Path ".git/refs/heads/main.lock") →
       fs w1 !! Path ".git/refs/heads/main.lock" = None →
       fs w2 !! Path ".git/refs/heads/main.lock" = None).
Proof.
  apply (specific_locks_are_removed env_calm two_locks ".git/refs/heads/main.lock").
  - cbn. auto.
  - vm_compute. eauto.
Defined.

(** C4 as stated fails: the index lock exists at the start, the operating
    system refuses its deletion, and it exists when the routine returns.  It
    also exists when the routine returns if its deletion succeeds and the
    first command, killed at its timeout, leaves a lock at the same path. *)
Lemma specific_lock_left_when_deletion_fails :
  let p := Path ".git/index.lock" in
  let w := snd (force_git_resolution env_refusing (initial two_locks)) in
  let w' := snd (force_git_resolution env_relock (initial two_locks)) in
  In ".git/index.lock" specific_locks
  ∧ two_locks !! p = Some File
  ∧ fs w !! p = Some File
  ∧ failed_unlinks (trace w') = []
  ∧ fs w' !! p = Some File.
Proof. vm_compute. repeat split. by left. Qed.

Lemma deletes_at_most_confined_to fs0 (allowed : path → Prop) p w w' :
  deletes_at_most p w w' →
  allowed p →
  confined_to fs0 allowed w →
  confined_to fs0 allowed w'.
Proof.
  intros Hstep Hp (Hunlinked & Hothers & Hkept). split; [|split].
  - intros q Hq.
    destruct (deletes_at_most_unlinked p w w' Hstep q Hq) as [Hold| ->]; auto.
  - intros q Hq. rewrite <- (Hothers q Hq).
    apply (deletes_at_most_other p w w' Hstep). by intros ->.
  - intros q. by apply (deletes_at_most_gone_or_kept fs0 p w w').
Qed.

(** C10. The cleanup gives to unlink only paths that the search below
    [.git] has yielded or that are among the four well-known paths; all of
    them lie below [.git] and have a name that matches [*.lock].  Every
    path outside [.git], and every path whose name does not match, resolves
    after the cleanup as it did before; and the cleanup creates nothing. *)
Theorem cleanup_touches_only_locks_under_git (env : environment) (fs0 : filesystem) :
  ∃ w,
    lock_cleanup env (initial fs0) = (Return tt, w)
    ∧ (∀ p, In p (unlinked (trace w)) →
            In p (rglob fs0 git_dir "*.lock") ∨ In p (map Path specific_locks))
    ∧ (∀ p, In p (unlinked (trace w)) →
            is_below git_dir p = true ∧ fnmatch "*.lock" (name p) = true)
    ∧ (∀ p, is_below git_dir p = false ∨ fnmatch "*.lock" (name p) = false →
            fs w !! p = fs0 !! p)
    ∧ (∀ p, fs w !! p = None ∨ fs w !! p = fs0 !! p).
Proof.
  pose (allowed := λ p, In p (rglob fs0 git_dir "*.lock")
                        ∨ In p (map Path specific_locks)).
  assert (Hlocks : ∀ p, allowed p → is_lock_under_git p = true).
  { intros p [Hp|Hp].
    - apply rglob_spec in Hp as (_ & Hbelow & Hname).
      unfold is_lock_under_git. by rewrite Hbelow, Hname.
    - apply in_map_iff in Hp as (s & <- & Hs). by apply specific_locks_under_git. }
  assert (Hinv : confined_to fs0 allowed (snd (lock_cleanup env (initial fs0)))).
  { rewrite lock_cleanup_returns. cbn [snd fs initial].
    unfold after_specific_locks, after_found_locks.
    apply (foldl_invariant _ (confined_to fs0 allowed)).
    { intros s w Hs. apply deletes_at_most_confined_to with (p := Path s).
      - apply remove_specific_lock_deletes_at_most.
      - right. by apply in_map. }
    apply (foldl_invariant _ (confined_to fs0 allowed)).
    { intros p w Hp. apply deletes_at_most_confined_to with (p := p).
      - apply remove_lock_file_deletes_at_most.
      - by left. }
    split; [|split].
    - intros p [].
    - done.
    - intros p. by right. }
  rewrite lock_cleanup_returns in *. cbn [snd] in Hinv.
  destruct Hinv as (Hunlinked & Hothers & Hkept).
  eexists. split; [done|]. split; [exact Hunlinked|]. split; [|split].
  - intros p Hp. by apply andb_true_iff, Hlocks, Hunlinked.
  - intros p Hp. apply Hothers. intros Hallowed%Hlocks.
    apply andb_true_iff in Hallowed as [Hbelow Hname].
    destruct Hp; congruence.
  - exact Hkept.
Qed.

(** C10 on an example: a file outside [.git] and a file below [.git] that
    is no lock are as they were. *)
Lemma cleanup_touches_only_locks_witness :
  ∃ w,
    lock_cleanup env_calm (initial two_locks) = (Return tt, w)
    ∧ fs w !! Path "README.md" = two_locks !! Path "README.md"
    ∧ fs w !! Path ".git/config" = two_locks !! Path ".git/config".
Proof.
  destruct (cleanup_touches_only_locks_under_git env_calm two_locks)
    as (w & Hw & _ & _ & Hleft & _).
  exists w. split; [done|]. split; apply Hleft.
  - left. vm_compute. reflexivity.
  - right. vm_compute. reflexivity.
Defined.

(** ** The shape of the cleanup's trace *)


(** One round of the second loop adds a test alone when the path does not
    exist, and else a test, an unlink and a line. *)
Lemma remove_specific_lock_trace env s w :
  ∃ t,
    trace (after_remove_specific_lock env s w) = trace w ++ t
    ∧ (t = [SysExists (Path s) false]
       ∨ ∃ r line,
           t = [SysExists (Path s) true; SysUnlink (Path s) r; Stdout line]
           ∧ ∀ e, r = Some e →
                  line = "Could not remove " +:+ path_str (Path s) +:+ ": "
                           +:+ exn_str e).
Proof.
  unfold after_remove_specific_lock. rewrite path_str_Path.
  destruct (bool_decide (is_Some (fs w !! Path s)));
    [|eexists; split; [done | by left]].
  destruct (unlink_error env (fs w) (Path s)) as [e|]; cbn [trace];
    (eexists; split; [done|]; right; eexists _, _; split; [done|]);
    intros e' [= <-]; done.
Qed.


Lemma after_specific_locks_trace env l w :
  ∃ t,
    trace (after_specific_locks env l w) = trace w ++ t
    ∧ checked t = map Path l
    ∧ (∀ p, In (SysExists p true) t →
            ∃ r, followed_by t (SysExists p true) (SysUnlink p r))
    ∧ ∀ p e, In (SysUnlink p (Some e)) t →
             followed_by t (SysUnlink p (Some e))
               (Stdout ("Could not remove " +:+ path_str p +:+ ": " +:+ exn_str e)).
Proof.
  unfold after_specific_locks. revert w.
  induction l as [|s l IH]; intros w.
  - exists []. cbn. rewrite app_nil_r. repeat split; by intros.
  - cbn [foldl].
    destruct (IH (after_remove_specific_lock env s w))
      as (t & -> & Hchecked & Htried & Hlogged).
    destruct (remove_specific_lock_trace env s w)
      as (t1 & -> & [-> | (r & line & -> & Hline)]).
    + exists ([SysExists (Path s) false] ++ t).
      split; [by rewrite <- app_assoc|]. split; [by rewrite checked_app, Hchecked|]. split.
      * intros p [Hhere|Hlater]; [discriminate|].
        destruct (Htried p Hlater) as [r Hr]. exists r. by apply followed_by_app_r.
      * intros p e [Hhere|Hlater]; [discriminate|].
        by apply followed_by_app_r, Hlogged.
    + exists ([SysExists (Path s) true; SysUnlink (Path s) r; Stdout line] ++ t).
      split; [by rewrite <- app_assoc|]. split; [by rewrite checked_app, Hchecked|]. split.
      * intros p [Hhere|[Hhere|[Hhere|Hlater]]]; try discriminate.
        -- injection Hhere as <-. exists r. by exists [], (Stdout line :: t).
        -- destruct (Htried p Hlater) as [r' Hr]. exists r'.
           by apply followed_by_app_r.
      * intros p e [Hhere|[Hhere|[Hhere|Hlater]]]; try discriminate.
        -- injection Hhere as <- ->. rewrite (Hline e eq_refl).
           by exists [SysExists (Path s) true], t.
        -- by apply followed_by_app_r, Hlogged.
Qed.



(** ** The scenario of two stale locks *)

(** A regular file that may be deleted is deleted by the first loop if the
    search has yielded it. *)
Lemma after_found_locks_removes env p l w :
  In p l →
  fs w !! p = Some File →
  unlink_refused env p = None →
  let w' := after_found_locks env l w in
  fs w' !! p = None
  ∧ In (SysUnlink p None) (trace w')
  ∧ In (Stdout ("Removed lock file: " +:+ path_str p)) (trace w').
Proof.
  unfold after_found_locks. revert w.
  induction l as [|q l IH]; intros w Hin Hfile Hallowed; [destruct Hin|].
  cbn [foldl]. destruct (decide (q = p)) as [->|Hne].
  - apply (foldl_invariant _
             (λ w', fs w' !! p = None
                    ∧ In (SysUnlink p None) (trace w')
                    ∧ In (Stdout ("Removed lock file: " +:+ path_str p)) (trace w'))).
    + intros x w' _ (Hgone & Hunlink & Hline).
      pose proof (remove_lock_file_deletes_at_most env x w') as Hstep.
      split; [|split; by apply (deletes_at_most_trace x w' _ Hstep)].
      destruct (deletes_at_most_lookup x w' _ Hstep p) as [-> | [_ ->]]; done.
    + unfold after_remove_lock_file, unlink_error. rewrite Hfile, Hallowed.
      cbn [fmap option_fmap option_map fs trace]. split; [apply lookup_delete_eq|].
      split; apply in_or_app; right; cbn; auto.
  - apply IH; [by destruct Hin | | done].
    rewrite <- Hfile.
    apply (deletes_at_most_other q w _ (remove_lock_file_deletes_at_most env q w)).
    by intros ->.
Qed.

(** When every entry of [l] is a regular file that may be deleted, the
    first loop deletes them all and prints one line for each. *)
Lemma after_found_locks_all_removed env l w :
  List.NoDup l →
  (∀ p, In p l → fs w !! p = Some File ∧ unlink_refused env p = None) →
  let w' := after_found_locks env l w in
  trace w'
  = trace w ++ flat_map (λ p, [SysUnlink p None;
                                Stdout ("Removed lock file: " +:+ path_str p)]) l
  ∧ (∀ q, ¬ In q l → fs w' !! q = fs w !! q)
  ∧ (∀ q, In q l → fs w' !! q = None).
Proof.
  unfold after_found_locks. revert w.
  induction l as [|p l IH]; intros w Hnodup Hall.
  - cbn. rewrite app_nil_r. split; [done|]. split; [done|]. intros q [].
  - cbn [foldl flat_map]. apply List.NoDup_cons_iff in Hnodup as [Hp Hnodup].
    destruct (Hall p) as [Hfile Hallowed]; [by left|].
    assert (Hstep : after_remove_lock_file env p w
                    = {| fs := delete p (fs w);
                         trace := trace w
                                  ++ [SysUnlink p None;
                                      Stdout ("Removed lock file: " +:+ path_str p)] |}).
    { unfold after_remove_lock_file, unlink_error. by rewrite Hfile, Hallowed. }
    rewrite Hstep.
    destruct (IH {| fs := delete p (fs w);
                    trace := trace w
                             ++ [SysUnlink p None;
                                 Stdout ("Removed lock file: " +:+ path_str p)] |}
                 Hnodup) as (Htrace & Hothers & Hgone).
    { intros q Hq. cbn [fs]. destruct (Hall q) as [Hq1 Hq2]; [by right|].
      split; [|done]. rewrite lookup_delete_ne; [done|]. by intros ->. }
    cbn [fs trace] in *. split; [|split].
    + rewrite Htrace. by rewrite <- app_assoc.
    + intros q Hq. rewrite Hothers by (intros Hq'; apply Hq; by right).
      apply lookup_delete_ne. intros ->. apply Hq. by left.
    + intros q [<-|Hq]; [|by apply Hgone].
      rewrite Hothers by done. apply lookup_delete_eq.
Qed.

(** When none of the paths of [l] exists, the second loop only tests
    them. *)
Lemma after_specific_locks_all_absent env l w :
  (∀ s, In s l → fs w !! Path s = None) →
  let w' := after_specific_locks env l w in
  fs w' = fs w
  ∧ trace w' = trace w ++ map (λ s, SysExists (Path s) false) l.
Proof.
  unfold after_specific_locks. revert w.
  induction l as [|s l IH]; intros w Habsent.
  - cbn. by rewrite app_nil_r.
  - cbn [foldl map].
    assert (Hstep : after_remove_specific_lock env s w
                    = {| fs := fs w;
                         trace := trace w ++ [SysExists (Path s) false] |}).
    { unfold after_remove_specific_lock.
      rewrite (Habsent s) by (by left).
      by rewrite bool_decide_eq_false_2 by (by intros [? ?]). }
    rewrite Hstep.
    destruct (IH {| fs := fs w; trace := trace w ++ [SysExists (Path s) false] |})
      as [Hfs Htrace].
    { intros s' Hs'. apply Habsent. by right. }
    cbn [fs trace] in *. split; [done|]. rewrite Htrace. by rewrite <- app_assoc.
Qed.

Lemma removed_lines_found l :
  removed_lines (flat_map (λ p, [SysUnlink p None;
                                  Stdout ("Removed lock file: " +:+ path_str p)]) l)
  = map (λ p, "Removed lock file: " +:+ path_str p) l.
Proof. induction l as [|p l IH]; [done|]. cbn [flat_map map]. by rewrite <- IH. Qed.

Lemma removed_lines_tested l :
  removed_lines (map (λ s, SysExists (Path s) false) l) = [].
Proof. by induction l. Qed.

Lemma removed_lines_app t1 t2 :
  removed_lines (t1 ++ t2) = removed_lines t1 ++ removed_lines t2.
Proof. unfold removed_lines. by rewrite printed_app, List.filter_app. Qed.

(** The report of a command starts with its invocation. *)
Lemma report_starts_with_spawn env cmd :
  ∃ waited rest, report env cmd = Spawn cmd 30 waited :: rest.
Proof. report_cases env cmd; by eexists _, _. Qed.

Lemma after_specific_locks_keeps_gone env l w p :
  fs w !! p = None → fs (after_specific_locks env l w) !! p = None.
Proof.
  unfold after_specific_locks. intros Hw.
  apply (foldl_invariant _ (λ w', fs w' !! p = None)); [|done].
  intros s w' _ Hgone.
  destruct (deletes_at_most_lookup (Path s) w' _
              (remove_specific_lock_deletes_at_most env s w') p) as [-> | [_ ->]];
    done.
Qed.

Lemma after_specific_locks_keeps_trace env l w e :
  In e (trace w) → In e (trace (after_specific_locks env l w)).
Proof.
  destruct (after_specific_locks_trace env l w) as (t & -> & _).
  intros He. apply in_or_app. by left.
Qed.

(** C7 (amended). Start with [.git/index.lock] and
    [.git/refs/heads/main.lock] present as regular files that the operating
    system lets delete.  The routine unlinks both and prints a line starting
    with Removed for each, and all of this is in the trace before the first
    command is invoked; when that command is invoked both files are gone.
    If the two files are all that the search yields, the lines starting
    with Removed are these two and no other. *)
Theorem two_stale_locks_are_removed_before_the_commands
    (env : environment) (fs0 : filesystem) :
  fs0 !! Path ".git/index.lock" = Some File →
  fs0 !! Path ".git/refs/heads/main.lock" = Some File →
  unlink_refused env (Path ".git/index.lock") = None →
  unlink_refused env (Path ".git/refs/heads/main.lock") = None →
  ∃ w1 w2 waited rest,
    lock_cleanup env (initial fs0) = (Return tt, w1)
    ∧ force_git_resolution env (initial fs0) = (Return tt, w2)
    ∧ trace w2
      = trace w1 ++ Spawn ["git"; "reset"; "--hard"; "HEAD"] 30 waited :: rest
    ∧ spawned (trace w1) = []
    ∧ fs w1 !! Path ".git/index.lock" = None
    ∧ fs w1 !! Path ".git/refs/heads/main.lock" = None
    ∧ In (SysUnlink (Path ".git/index.lock") None) (trace w1)
    ∧ In (SysUnlink (Path ".git/refs/heads/main.lock") None) (trace w1)
    ∧ In (Stdout "Removed lock file: .git/index.lock") (trace w1)
    ∧ In (Stdout "Removed lock file: .git/refs/heads/main.lock") (trace w1)
    ∧ ((∀ p, In p (rglob fs0 git_dir "*.lock") →
             p = Path ".git/index.lock" ∨ p = Path ".git/refs/heads/main.lock") →
       Permutation (removed_lines (trace w1))
         [ "Removed lock file: .git/index.lock";
           "Removed lock file: .git/refs/heads/main.lock" ]).
Proof.
  intros Hfile1 Hfile2 Hallowed1 Hallowed2.
  set (p1 := Path ".git/index.lock") in *.
  set (p2 := Path ".git/refs/heads/main.lock") in *.
  set (l := rglob fs0 git_dir "*.lock").
  set (w0 := log (Stdout "Force-resolving Git lock and conflicts...") (initial fs0)).
  assert (Hin1 : In p1 l).
  { apply rglob_spec. split; [by rewrite Hfile1|]. by vm_compute. }
  assert (Hin2 : In p2 l).
  { apply rglob_spec. split; [by rewrite Hfile2|]. by vm_compute. }
  destruct (after_found_locks_removes env p1 l w0 Hin1 Hfile1 Hallowed1)
    as (Hgone1 & Hunlink1 & Hline1).
  destruct (after_found_locks_removes env p2 l w0 Hin2 Hfile2 Hallowed2)
    as (Hgone2 & Hunlink2 & Hline2).
  destruct (force_git_resolution_trace env (initial fs0)) as [fs' Hall].
  destruct (report_starts_with_spawn env ["git"; "reset"; "--hard"; "HEAD"])
    as (waited & rest & Hfirst).
  rewrite lock_cleanup_returns in Hall. cbn [snd fs initial] in Hall.
  fold l w0 in Hall.
  eexists (after_specific_locks env specific_locks (after_found_locks env l w0)),
          _, waited, _.
  split; [by rewrite lock_cleanup_returns|].
  split; [exact Hall|]. cbn [trace].
  split.
  { change commands
      with (["git"; "reset"; "--hard"; "HEAD"] :: List.tl commands).
    cbn [map concat]. rewrite Hfirst. cbn [app]. reflexivity. }
  split.
  { pose proof (lock_cleanup_spawned env (initial fs0)) as Hquiet.
    by rewrite lock_cleanup_returns in Hquiet. }
  split; [by apply after_specific_locks_keeps_gone|].
  split; [by apply after_specific_locks_keeps_gone|].
  do 4 (split; [by apply after_specific_locks_keeps_trace|]).
  intros Honly.
  assert (Hperm : Permutation l [p1; p2]).
  { apply Permutation.NoDup_Permutation.
    - apply rglob_NoDup.
    - repeat constructor; cbn; [|tauto]. intros [[=]|[]].
    - intros p. split; [|by intros [<-|[<-|[]]]].
      intros [->| ->]%Honly; cbn; auto. }
  destruct (after_found_locks_all_removed env l w0 (rglob_NoDup _ _ _))
    as (Htrace & Hothers & Hgone).
  { intros p [->| ->]%Honly; done. }
  destruct (after_specific_locks_all_absent env specific_locks
              (after_found_locks env l w0)) as [_ Htested].
  { intros s Hs. destruct (decide (Path s ∈ l)) as [Hl|Hl];
      rewrite list_elem_of_In in Hl.
    - by apply Hgone.
    - rewrite (Hothers _ Hl). cbn [fs w0 log initial].
      destruct (fs0 !! Path s) eqn:Hthere; [|done].
      exfalso. apply Hl, rglob_spec. split; [by rewrite Hthere|].
      by apply andb_true_iff, specific_locks_under_git. }
  rewrite Htested, Htrace. unfold w0, log, initial. cbn [trace].
  rewrite !removed_lines_app, removed_lines_found, removed_lines_tested, app_nil_r.
  cbn [initial trace removed_lines printed flat_map List.filter app].
  apply (Permutation_map (λ p, "Removed lock file: " +:+ path_str p)) in Hperm.
  exact Hperm.
Qed.

(** C7 on an example: the repository with two stale locks, when nothing
    goes wrong. *)
Lemma two_stale_locks_witness :
  ∃ w1,
    lock_cleanup env_calm (initial two_locks) = (Return tt, w1)
    ∧ fs w1 !! Path ".git/index.lock" = None
    ∧ fs w1 !! Path ".git/refs/heads/main.lock" = None
    ∧ Permutation (removed_lines (trace w1))
        [ "Removed lock file: .git/index.lock";
          "Removed lock file: .git/refs/heads/main.lock" ].
Proof.
  destruct (two_stale_locks_are_removed_before_the_commands env_calm two_locks)
    as (w1 & w2 & waited & rest & Hw1 & _ & _ & _ & Hgone1 & Hgone2 & _ & _ & _ & _
        & Hlines); try (vm_compute; reflexivity).
  exists w1. repeat (split; [done|]). apply Hlines.
  intros p Hp. rewrite rglob_two_locks in Hp.
  destruct Hp as [<-|[<-|[]]]; auto.
Defined.

(** C7 as stated fails: both locks exist at the start, the operating system
    refuses the deletion of the index lock, and the routine returns with
    that file in place and a single line starting with Removed. *)
Lemma stale_lock_kept_when_deletion_fails :
  let w := snd (force_git_resolution env_refusing (initial two_locks)) in
  two_locks !! Path ".git/index.lock" = Some File
  ∧ two_locks !! Path ".git/refs/heads/main.lock" = Some File
  ∧ fs w !! Path ".git/index.lock" = Some File
  ∧ removed_lines (trace w) = ["Removed lock file: .git/refs/heads/main.lock"].
Proof. vm_compute. repeat split. Qed.

(** * Further properties of the routine *)

(** ** The transcript *)

Lemma deleted_app t1 t2 : deleted (t1 ++ t2) = deleted t1 ++ deleted t2.
Proof. apply flat_map_app. Qed.





(** ** The report of each command *)












(** ** What the success mark tells *)







(** ** What the search looks for *)



(** ** Directories *)






(** ** The lines that tell a deletion *)





(** ** Nothing to clean *)

(** X9. When no entry below [.git] has a name that matches [*.lock] (and so
    when there is no [.git] at all), the cleanup unlinks nothing and leaves
    the file system as it is: it prints the banner and tests the four
    well-known paths, nothing more. *)
Theorem cleanup_of_a_clean_tree (env : environment) (fs0 : filesystem) :
  (∀ p, is_lock_under_git p = true → fs0 !! p = None) →
  ∃ w,
    lock_cleanup env (initial fs0) = (Return tt, w)
    ∧ fs w = fs0
    ∧ trace w
      = [ Stdout "Force-resolving Git lock and conflicts...";
          SysExists (Path ".git/index.lock") false;
          SysExists (Path ".git/HEAD.lock") false;
          SysExists (Path ".git/config.lock") false;
          SysExists (Path ".git/refs/heads/main.lock") false ].
Proof.
  intros Hclean. eexists. split; [apply lock_cleanup_returns|].
  cbn [fs initial].
  assert (Hnone : rglob fs0 git_dir "*.lock" = []).
  { destruct (rglob fs0 git_dir "*.lock") as [|p l] eqn:Hl; [done|].
    assert (Hp : In p (rglob fs0 git_dir "*.lock")) by (rewrite Hl; by left).
    apply rglob_spec in Hp as ([k Hk] & Hbelow & Hname).
    rewrite Hclean in Hk; [done|]. unfold is_lock_under_git.
    by rewrite Hbelow, Hname. }
  rewrite Hnone. cbn [after_found_locks foldl].
  destruct (after_specific_locks_all_absent env specific_locks
              (log (Stdout "Force-resolving Git lock and conflicts...") (initial fs0)))
    as [-> ->]; [|done].
  intros s Hs. apply Hclean. by apply specific_locks_under_git.
Qed.

Lemma no_repository_entries :
  map_to_list no_repository
  = [ (Path "src/main.py", File); (Path "README.md", File); (Path "src", Dir) ].
Proof. vm_compute. reflexivity. Qed.

Lemma no_repository_has_no_lock p :
  is_lock_under_git p = true → no_repository !! p = None.
Proof.
  intros Hlock. destruct (no_repository !! p) as [k|] eqn:Hk; [|done].
  apply elem_of_map_to_list, list_elem_of_In in Hk.
  rewrite no_repository_entries in Hk.
  repeat (destruct Hk as [[= <- <-]|Hk]; [discriminate Hlock|]). destruct Hk.
Qed.

(** X9 on an example: a directory that is no repository. *)
Lemma cleanup_of_a_clean_tree_witness :
  ∃ w,
    lock_cleanup env_no_git (initial no_repository) = (Return tt, w)
    ∧ fs w = no_repository
    ∧ trace w
      = [ Stdout "Force-resolving Git lock and conflicts...";
          SysExists (Path ".git/index.lock") false;
          SysExists (Path ".git/HEAD.lock") false;
          SysExists (Path ".git/config.lock") false;
          SysExists (Path ".git/refs/heads/main.lock") false ].
Proof.
  apply (cleanup_of_a_clean_tree env_no_git no_repository).
  apply no_repository_has_no_lock.
Defined.

(** ** What the cleanup leaves cannot be unlinked *)

Lemma unlink_fails_absent env p w : fs w !! p = None → unlink_fails env p w.
Proof. intros Hp. unfold unlink_fails, unlink_error. by rewrite Hp. Qed.

Lemma unlink_fails_same_fs env p w w' :
  fs w' !! p = fs w !! p → unlink_fails env p w → unlink_fails env p w'.
Proof. unfold unlink_fails, unlink_error. by intros ->. Qed.

Lemma deletes_at_most_unlink_fails env p q w w' :
  deletes_at_most q w w' → unlink_fails env p w → unlink_fails env p w'.
Proof.
  intros Hstep Hfails.
  destruct (deletes_at_most_lookup q w w' Hstep p) as [Hsame|[_ Hgone]].
  - by apply (unlink_fails_same_fs env p w).
  - by apply unlink_fails_absent.
Qed.

(** After the round of the first loop for [p], an unlink of [p] fails: the
    file is gone, or the same error would be raised again. *)
Lemma remove_lock_file_unlink_fails env p w :
  unlink_fails env p (after_remove_lock_file env p w).
Proof.
  unfold after_remove_lock_file.
  destruct (unlink_error env (fs w) p) as [e|] eqn:Herr.
  - unfold unlink_fails. cbn [fs]. by rewrite Herr.
  - apply unlink_fails_absent. cbn [fs]. apply lookup_delete_eq.
Qed.

Lemma after_found_locks_unlink_fails env p l w :
  In p l ∨ unlink_fails env p w →
  unlink_fails env p (after_found_locks env l w).
Proof.
  unfold after_found_locks. revert w.
  induction l as [|q l IH]; intros w [Hin|Hfails]; [destruct Hin|done| |].
  - cbn [foldl]. apply IH. destruct Hin as [->|Hin]; [right|by left].
    apply remove_lock_file_unlink_fails.
  - cbn [foldl]. apply IH. right.
    apply (deletes_at_most_unlink_fails env p q w); [|done].
    apply remove_lock_file_deletes_at_most.
Qed.

(** When the first loop is over, no lock below [.git] can be unlinked. *)
Lemma first_loop_leaves_nothing (env : environment) (fs0 : filesystem) p :
  is_lock_under_git p = true →
  unlink_fails env p
    (after_found_locks env (rglob fs0 git_dir "*.lock")
       (log (Stdout "Force-resolving Git lock and conflicts...") (initial fs0))).
Proof.
  intros Hlock. apply after_found_locks_unlink_fails.
  destruct (fs0 !! p) as [k|] eqn:Hp.
  - left. apply rglob_spec. split; [by rewrite Hp|].
    by apply andb_true_iff in Hlock.
  - right. by apply unlink_fails_absent.
Qed.

(** A round of the first loop on a path that cannot be unlinked deletes
    nothing and prints no line that starts with Removed. *)
Lemma remove_lock_file_stuck env p w :
  unlink_fails env p w →
  ∃ t, trace (after_remove_lock_file env p w) = trace w ++ t
       ∧ fs (after_remove_lock_file env p w) = fs w
       ∧ deleted t = []
       ∧ removed_lines t = [].
Proof.
  intros [e He]. unfold after_remove_lock_file. rewrite He. cbn [fs trace].
  by eexists.
Qed.

(** So does a round of the second loop; the path it unlinks, if any, is its
    own and exists. *)
Lemma remove_specific_lock_stuck env s w :
  unlink_fails env (Path s) w →
  ∃ t, trace (after_remove_specific_lock env s w) = trace w ++ t
       ∧ fs (after_remove_specific_lock env s w) = fs w
       ∧ deleted t = []
       ∧ removed_lines t = []
       ∧ ∀ p, In p (unlinked t) → is_Some (fs w !! p) ∧ p = Path s.
Proof.
  intros [e He]. unfold after_remove_specific_lock.
  destruct (bool_decide_reflect (is_Some (fs w !! Path s))) as [Hthere|_].
  - rewrite He. cbn [fs trace]. eexists. do 4 (split; [done|]).
    by intros p [<-|[]].
  - cbn [fs trace]. eexists. do 4 (split; [done|]). intros p [].
Qed.

Lemma after_found_locks_stuck env l w :
  (∀ p, In p l → unlink_fails env p w) →
  ∃ t, trace (after_found_locks env l w) = trace w ++ t
       ∧ fs (after_found_locks env l w) = fs w
       ∧ deleted t = []
       ∧ removed_lines t = [].
Proof.
  unfold after_found_locks. revert w.
  induction l as [|p l IH]; intros w Hfail.
  - exists []. cbn. by rewrite app_nil_r.
  - cbn [foldl].
    destruct (remove_lock_file_stuck env p w) as (t1 & Ht1 & Hfs1 & Hd1 & Hr1);
      [apply Hfail; by left|].
    destruct (IH (after_remove_lock_file env p w)) as (t2 & -> & -> & Hd2 & Hr2).
    { intros q Hq. apply (unlink_fails_same_fs env q w); [by rewrite Hfs1|].
      apply Hfail. by right. }
    exists (t1 ++ t2). rewrite Ht1, <- app_assoc, deleted_app, removed_lines_app.
    by rewrite Hd1, Hd2, Hr1, Hr2.
Qed.

Lemma after_specific_locks_stuck env l w :
  (∀ s, In s l → unlink_fails env (Path s) w) →
  ∃ t, trace (after_specific_locks env l w) = trace w ++ t
       ∧ fs (after_specific_locks env l w) = fs w
       ∧ deleted t = []
       ∧ removed_lines t = []
       ∧ ∀ p, In p (unlinked t) → is_Some (fs w !! p) ∧ In p (map Path l).
Proof.
  unfold after_specific_locks. revert w.
  induction l as [|s l IH]; intros w Hfail.
  - exists []. cbn. rewrite app_nil_r. do 4 (split; [done|]). intros p [].
  - cbn [foldl].
    destruct (remove_specific_lock_stuck env s w)
      as (t1 & Ht1 & Hfs1 & Hd1 & Hr1 & Hu1); [apply Hfail; by left|].
    destruct (IH (after_remove_specific_lock env s w))
      as (t2 & -> & -> & Hd2 & Hr2 & Hu2).
    { intros s' Hs'. apply (unlink_fails_same_fs env _ w); [by rewrite Hfs1|].
      apply Hfail. by right. }
    exists (t1 ++ t2). rewrite Ht1, <- app_assoc, deleted_app, removed_lines_app.
    rewrite Hd1, Hd2, Hr1, Hr2. do 4 (split; [done|]).
    intros p. rewrite unlinked_app. intros [Hp|Hp]%in_app_or.
    + destruct (Hu1 p Hp) as [Hthere ->]. split; [done | by left].
    + destruct (Hu2 p Hp) as [Hthere Hin]. rewrite <- Hfs1. split; [done | by right].
Qed.




(** X11. Running the cleanup a second time changes nothing, as long as the
    operating system answers a repeated unlink of the same path in the same
    way: what the first cleanup has left could not be unlinked, so the
    second cleanup deletes nothing and prints no line that starts with
    Removed. *)
Theorem cleanup_is_idempotent (env : environment) (fs0 : filesystem) :
  ∃ w1 w2,
    lock_cleanup env (initial fs0) = (Return tt, w1)
    ∧ lock_cleanup env (initial (fs w1)) = (Return tt, w2)
    ∧ fs w2 = fs w1
    ∧ deleted (trace w2) = []
    ∧ removed_lines (trace w2) = [].
Proof.
  pose (w1 := after_specific_locks env specific_locks
                (after_found_locks env (rglob fs0 git_dir "*.lock")
                   (log (Stdout "Force-resolving Git lock and conflicts...")
                        (initial fs0)))).
  pose (w0 := log (Stdout "Force-resolving Git lock and conflicts...")
                  (initial (fs w1))).
  exists w1, (after_specific_locks env specific_locks
                (after_found_locks env (rglob (fs w1) git_dir "*.lock") w0)).
  split; [apply lock_cleanup_returns|].
  split; [apply lock_cleanup_returns|].
  assert (Hleft : ∀ p, is_lock_under_git p = true → unlink_fails env p w1).
  { intros p Hlock. unfold w1, after_specific_locks.
    apply (foldl_invariant _ (unlink_fails env p)).
    - intros s w _. apply deletes_at_most_unlink_fails with (q := Path s).
      apply remove_specific_lock_deletes_at_most.
    - by apply first_loop_leaves_nothing. }
  destruct (after_found_locks_stuck env (rglob (fs w1) git_dir "*.lock") w0)
    as (t1 & Ht1 & Hfs1 & Hd1 & Hr1).
  { intros p Hp. apply rglob_spec in Hp as (_ & Hbelow & Hname).
    apply (unlink_fails_same_fs env p w1); [done|]. apply Hleft.
    unfold is_lock_under_git. by rewrite Hbelow, Hname. }
  destruct (after_specific_locks_stuck env specific_locks
              (after_found_locks env (rglob (fs w1) git_dir "*.lock") w0))
    as (t2 & Ht2 & Hfs2 & Hd2 & Hr2 & _).
  { intros s Hs. apply (unlink_fails_same_fs env _ w1); [by rewrite Hfs1|].
    by apply Hleft, specific_locks_under_git. }
  rewrite Hfs2, Hfs1, Ht2, Ht1. unfold w0, log, initial. cbn [fs trace].
  split; [done|].
  rewrite !deleted_app, !removed_lines_app, Hd1, Hd2, Hr1, Hr2. by split.
Qed.
